(** * SLIP framing over a chunked byte stream (node-serialport-slip)

    A shallow embedding of [src/slip.js]: the [SLIP] constructor, the
    outbound path [sendMessage] and the inbound reassembly loop
    [collectDataAndFireMessageEvent_], together with the properties the
    specification states about them.

    Bytes are [Byte.byte], a Node [Buffer] is a [list byte].  The loop
    mutates two variables captured by a closure that is created once,
    when the prototype method is defined; they are modelled as an
    explicit store threaded through every call. *)

From Stdlib Require Import List Arith NArith Bool Lia.
From Stdlib.Strings Require Import Byte.
From Equations Require Import Equations.
Import ListNotations.

(** * Buffers *)

Definition Buffer := list byte.

(** [Buffer.allocUnsafe(n)]: [n] bytes of unspecified content.  The model
    fixes them to zero; every use below overwrites or ignores them. *)
Definition allocUnsafe (n : nat) : Buffer := repeat x00 n.

(** [data.indexOf(value)] for a one-byte [value]: offset of the first
    occurrence; [None] stands for JavaScript's [-1]. *)
Fixpoint indexOf (data : Buffer) (value : byte) : option nat :=
  match data with
  | [] => None
  | b :: rest =>
      if Byte.eqb b value then Some 0
      else match indexOf rest value with
           | Some i => Some (S i)
           | None => None
           end
  end.

(** [data.slice(start, stop)] for [start <= stop]. *)
Definition slice (data : Buffer) (start stop : nat) : Buffer :=
  firstn (stop - start) (skipn start data).

(** [source.copy(target, targetStart, sourceStart, sourceEnd)] of Node:
    nothing is copied when [targetStart] is at or past the end of the
    target or the source range is empty; otherwise the range is cut to
    what the target can still hold and to what the source has.  The
    target is mutated in place: the model returns its new content and
    the number of bytes copied (the JavaScript return value).  Every
    call in slip.js has [sourceStart = 0], so Node's range error for a
    [sourceStart] past the source never arises. *)
Definition copy (source target : Buffer)
    (targetStart sourceStart sourceEnd : nat) : Buffer * nat :=
  if (length target <=? targetStart) || (sourceEnd <=? sourceStart)
  then (target, 0)
  else
    let nb := Nat.min (Nat.min (sourceEnd - sourceStart)
                               (length target - targetStart))
                      (length source - sourceStart) in
    (firstn targetStart target
       ++ firstn nb (skipn sourceStart source)
       ++ skipn (targetStart + nb) target,
     nb).

(** * Protocol definition *)

Record EscapeRule := {
  initialFragment : byte;
  replacement : byte
}.

Record ProtocolDefinition := {
  messageMaxLength : nat;
  endByte : byte;
  escapeByte : byte;
  escapeRules : list EscapeRule
}.

Definition defaultProtocolDefinition : ProtocolDefinition := {|
  messageMaxLength := 256;
  endByte := xc0;
  escapeByte := xdb;
  escapeRules :=
    [ {| initialFragment := xc0; replacement := xdc |};
      {| initialFragment := xdb; replacement := xdd |} ]
|}.

(** The object a caller may pass as [protocol]: any field can be left
    [undefined]. *)
Record ProtocolOptions := {
  opt_messageMaxLength : option nat;
  opt_endByte : option byte;
  opt_escapeByte : option byte;
  opt_escapeRules : option (list EscapeRule)
}.

Definition emptyOptions : ProtocolOptions := {|
  opt_messageMaxLength := None;
  opt_endByte := None;
  opt_escapeByte := None;
  opt_escapeRules := None
|}.

Definition orDefault {A : Type} (o : option A) (d : A) : A :=
  match o with Some v => v | None => d end.

(** lodash's [_.defaults(object, source)]: every property of [object]
    that is [undefined] is taken from [source]. *)
Definition defaults (object : ProtocolOptions) (source : ProtocolDefinition)
  : ProtocolDefinition := {|
  messageMaxLength := orDefault (opt_messageMaxLength object) (messageMaxLength source);
  endByte := orDefault (opt_endByte object) (endByte source);
  escapeByte := orDefault (opt_escapeByte object) (escapeByte source);
  escapeRules := orDefault (opt_escapeRules object) (escapeRules source)
|}.

(** * The codec of slip-message.js *)

Definition ruleFor (rules : list EscapeRule) (b : byte) : option EscapeRule :=
  find (fun r => Byte.eqb (initialFragment r) b) rules.

Definition ruleOfReplacement (rules : list EscapeRule) (b : byte)
  : option EscapeRule :=
  find (fun r => Byte.eqb (replacement r) b) rules.

Definition escapeOne (protocol : ProtocolDefinition) (b : byte) : Buffer :=
  match ruleFor (escapeRules protocol) b with
  | Some r => [escapeByte protocol; replacement r]
  | None => [b]
  end.

(** Modelled from the spec: the Frame Encoder, [new SLIPMessage(buffer)]
    of slip-message.js, which is not among the sources.  The payload is
    scanned byte by byte; a byte that is the [initialFragment] of a rule
    becomes [escapeByte] followed by that rule's [replacement], any other
    byte is emitted unchanged.  No terminator is appended. *)
Definition SLIPMessage (protocol : ProtocolDefinition) (buffer : Buffer)
  : Buffer :=
  flat_map (escapeOne protocol) buffer.

(** Modelled from the spec: the Frame Decoder, [SLIPMessage.unescape] of
    slip-message.js, which is not among the sources.  On [escapeByte] the
    next byte must be the [replacement] of a rule and the pair becomes
    that rule's [initialFragment]; an [escapeByte] that ends the frame or
    is followed by any other byte makes the frame invalid ([None], the
    falsy marker).  Every other byte passes through. *)
Fixpoint unescape (protocol : ProtocolDefinition) (frame : Buffer)
  : option Buffer :=
  match frame with
  | [] => Some []
  | b :: rest =>
      if Byte.eqb b (escapeByte protocol) then
        match rest with
        | [] => None
        | c :: rest' =>
            match ruleOfReplacement (escapeRules protocol) c with
            | Some r =>
                match unescape protocol rest' with
                | Some m => Some (initialFragment r :: m)
                | None => None
                end
            | None => None
            end
        end
      else
        match unescape protocol rest with
        | Some m => Some (b :: m)
        | None => None
        end
  end.

(** * Instances and the state they share *)

(** What a [SLIP] object holds besides the serial port: [protocol_], and
    [endByte_], the one-byte buffer [Buffer.from([protocol.endByte])],
    kept as its byte. *)
Record SLIP := {
  protocol_ : ProtocolDefinition;
  endByte_ : byte
}.

(** State that lives outside the instances: the protocol handed to
    [SLIPMessage.applyProtocol] (the static [SLIPMessage.unescape] is
    called without one), and [temporaryBuffer] and [writeCursor], the
    variables of the closure built once by the immediately invoked
    function that defines [SLIP.prototype.collectDataAndFireMessageEvent_]. *)
Record Store := {
  appliedProtocol : ProtocolDefinition;
  temporaryBuffer : Buffer;
  writeCursor : nat
}.

Definition capacity : nat := 1024 * 10.
Arguments capacity : simpl never.

(** The store when the module has been loaded: an uninitialised buffer of
    [1024 * 10] bytes (its content [garbage] is arbitrary) and a cursor at
    0.  No protocol has been applied yet; the field is overwritten by the
    first constructor call, before any chunk can arrive. *)
Definition loaded (garbage : Buffer) : Store := {|
  appliedProtocol := defaultProtocolDefinition;
  temporaryBuffer := firstn capacity (garbage ++ allocUnsafe capacity);
  writeCursor := 0
|}.

(** Modelled from the spec: [SLIPMessage.applyProtocol] of slip-message.js,
    which is not among the sources, makes [protocol] the definition the
    encoder and the decoder work with.  slip.js hands no protocol to
    [new SLIPMessage] or to [SLIPMessage.unescape], so the definition is
    module state.  Only this effect is modelled.  Whether the function
    also checks the definition cannot be read off slip.js; a constructor
    that throws leaves no instance behind, and the statements below range
    over the instances and stores that exist. *)
Definition applyProtocol (protocol : ProtocolDefinition) (s : Store) : Store := {|
  appliedProtocol := protocol;
  temporaryBuffer := temporaryBuffer s;
  writeCursor := writeCursor s
|}.

(** The constructor, lines 35-47: defaults are filled in, the protocol is
    handed to [SLIPMessage], and the instance keeps it with its end byte.
    The closure variables are not touched. *)
Definition new_SLIP (protocol : option ProtocolOptions) (s : Store)
  : SLIP * Store :=
  let protocol :=
    defaults (match protocol with Some p => p | None => emptyOptions end)
             defaultProtocolDefinition in
  ({| protocol_ := protocol; endByte_ := endByte protocol |},
   applyProtocol protocol s).

(** [sendMessage]: the bytes handed to [write]. *)
Definition sendMessage (this : SLIP) (s : Store) (buffer : Buffer) : Buffer :=
  SLIPMessage (appliedProtocol s) buffer ++ [endByte_ this].

(** [sendFlush]: a lone end byte. *)
Definition sendFlush (this : SLIP) : Buffer := [endByte_ this].

(** * The reassembly loop *)

(** [writeCursor += data.copy(temporaryBuffer, writeCursor, 0, sourceEnd)] *)
Definition copyToTemporary (data : Buffer) (sourceEnd : nat) (s : Store) : Store :=
  let '(target, copied) :=
    copy data (temporaryBuffer s) (writeCursor s) 0 sourceEnd in
  {| appliedProtocol := appliedProtocol s;
     temporaryBuffer := target;
     writeCursor := writeCursor s + copied |}.

(** Lines 103-111: the messages fired when an end byte is met. *)
Definition fire (s : Store) : list Buffer :=
  if 0 <? writeCursor s then
    let messageBuffer :=
      fst (copy (temporaryBuffer s) (allocUnsafe (writeCursor s))
                0 0 (writeCursor s)) in
    match unescape (appliedProtocol s) messageBuffer with
    | Some msg => [msg]
    | None => []
    end
  else [].

Definition resetCursor (s : Store) : Store := {|
  appliedProtocol := appliedProtocol s;
  temporaryBuffer := temporaryBuffer s;
  writeCursor := 0
|}.

Definition inspect {A} (a : A) : {b : A | a = b} := exist _ a eq_refl.

(** [collectDataAndFireMessageEvent_], lines 91-121.  The result is the
    store after the call and the ['message'] events emitted on [this], in
    order.  Each turn of the [do ... while (true)] loop continues with a
    strictly shorter [data]. *)
Equations collectDataAndFireMessageEvent_ (this : SLIP) (data : Buffer)
    (s : Store) : Store * list Buffer by wf (length data) lt :=
  collectDataAndFireMessageEvent_ this data s
    with inspect (indexOf data (endByte_ this)) := {
    | exist _ None _ => (copyToTemporary data (length data) s, []);
    | exist _ (Some endIndex) found =>
        let s1 := if 0 <? endIndex then copyToTemporary data endIndex s else s in
        let fired := fire s1 in
        let s2 := resetCursor s1 in
        if endIndex <? length data - 1 then
          let r := collectDataAndFireMessageEvent_ this
                     (slice data (endIndex + 1) (length data)) s2 in
          (fst r, fired ++ snd r)
        else (s2, fired) }.
Next Obligation.
  clear collectDataAndFireMessageEvent_.
  unfold slice. rewrite length_firstn, length_skipn.
  enough (endIndex < length data) by lia.
  revert endIndex found.
  induction data as [|b rest IH]; simpl; intros i H; [discriminate|].
  destruct (Byte.eqb b (endByte_ this)).
  - injection H as <-. lia.
  - destruct (indexOf rest (endByte_ this)) as [j|]; [|discriminate].
    injection H as <-. specialize (IH j eq_refl). lia.
Qed.

(** Successive ['data'] events delivered to one instance, lines 44-46. *)
Fixpoint receive (this : SLIP) (chunks : list Buffer) (s : Store)
  : Store * list Buffer :=
  match chunks with
  | [] => (s, [])
  | data :: later =>
      let r1 := collectDataAndFireMessageEvent_ this data s in
      let r2 := receive this later (fst r1) in
      (fst r2, snd r1 ++ snd r2)
  end.

(** * Derived views of the store *)

(** The bytes of the frame under reassembly. *)
Definition pending (s : Store) : Buffer :=
  firstn (writeCursor s) (temporaryBuffer s).

(** Room left behind the cursor. *)
Definition room (s : Store) : nat :=
  length (temporaryBuffer s) - writeCursor s.

(** The store after [bytes] were written at the cursor, as far as they
    fit. *)
Definition appended (bytes : Buffer) (s : Store) : Store := {|
  appliedProtocol := appliedProtocol s;
  temporaryBuffer :=
    firstn (writeCursor s) (temporaryBuffer s)
      ++ firstn (room s) bytes
      ++ skipn (writeCursor s + Nat.min (length bytes) (room s)) (temporaryBuffer s);
  writeCursor := writeCursor s + Nat.min (length bytes) (room s)
|}.

(** What the loop does with one byte. *)
Definition step (this : SLIP) (b : byte) (s : Store) : Store * list Buffer :=
  if Byte.eqb b (endByte_ this) then (resetCursor s, fire s)
  else (appended [b] s, []).

(** The loop, one byte at a time. *)
Fixpoint steps (this : SLIP) (data : Buffer) (s : Store) : Store * list Buffer :=
  match data with
  | [] => (s, [])
  | b :: rest =>
      let r1 := step this b s in
      let r2 := steps this rest (fst r1) in
      (fst r2, snd r1 ++ snd r2)
  end.

(** Splitting a stream at its end bytes, in the words of the
    specification: [cur] is the frame being collected, the result is the
    list of terminated frames, oldest first, and the unterminated rest. *)
Fixpoint framesOf (e : byte) (cur stream : Buffer) : list Buffer * Buffer :=
  match stream with
  | [] => ([], cur)
  | b :: rest =>
      if Byte.eqb b e then
        let r := framesOf e [] rest in (cur :: fst r, snd r)
      else framesOf e (cur ++ [b]) rest
  end.

(** What a terminated frame delivers: nothing when it is empty or does
    not decode, its payload otherwise. *)
Definition delivered (protocol : ProtocolDefinition) (frame : Buffer)
  : list Buffer :=
  match frame with
  | [] => []
  | _ :: _ =>
      match unescape protocol frame with
      | Some msg => [msg]
      | None => []
      end
  end.

(** Stores in which the cursor lies inside the buffer. *)
Definition inBounds (s : Store) : Prop :=
  writeCursor s <= length (temporaryBuffer s).

(** Stores that can arise: the module is loaded, instances are
    constructed, chunks arrive at any of them. *)
Inductive reachable : Store -> Prop :=
| reach_loaded garbage : reachable (loaded garbage)
| reach_new protocol s :
    reachable s -> reachable (snd (new_SLIP protocol s))
| reach_data this data s :
    reachable s ->
    reachable (fst (collectDataAndFireMessageEvent_ this data s)).

(** Protocol definitions for which the codec is a codec: both reserved
    bytes are escaped, no escape sequence contains the end byte, and a
    replacement identifies its rule. *)
Record codec (protocol : ProtocolDefinition) : Prop := {
  end_is_not_escape : endByte protocol <> escapeByte protocol;
  end_has_rule :
    In (endByte protocol) (map initialFragment (escapeRules protocol));
  escape_has_rule :
    In (escapeByte protocol) (map initialFragment (escapeRules protocol));
  end_no_replacement :
    ~ In (endByte protocol) (map replacement (escapeRules protocol));
  replacements_distinct :
    NoDup (map replacement (escapeRules protocol))
}.

(** A frame is malformed when somewhere in it the escape byte is the last
    byte or is followed by a byte that is the replacement of no rule. *)
Definition malformed (protocol : ProtocolDefinition) (frame : Buffer) : Prop :=
  exists pre tail,
    frame = pre ++ escapeByte protocol :: tail
    /\ match tail with
       | [] => True
       | c :: _ => ruleOfReplacement (escapeRules protocol) c = None
       end.

(** The instance and the store after [new SLIP(path, options)], with no
    protocol given, on a freshly loaded module. *)
Definition firstInstance : SLIP := fst (new_SLIP None (loaded [])).
Definition firstStore : Store := snd (new_SLIP None (loaded [])).

(** * Bytes and offsets *)

(** Closes [n <= m] between closed numbers by computing. *)
Ltac by_computation := apply Nat.leb_le; vm_compute; reflexivity.

Lemma byte_eqb_spec (a b : byte) : reflect (a = b) (Byte.eqb a b).
Proof.
  destruct (Byte.eqb a b) eqn:E; constructor.
  - now apply Byte.byte_dec_bl.
  - now apply Byte.eqb_false.
Qed.

Lemma byte_eqb_refl (a : byte) : Byte.eqb a a = true.
Proof. now apply Byte.byte_dec_lb. Qed.

Lemma byte_eqb_neq (a b : byte) : a <> b -> Byte.eqb a b = false.
Proof. intros H. destruct (byte_eqb_spec a b); congruence. Qed.

Lemma indexOf_lt data value i : indexOf data value = Some i -> i < length data.
Proof.
  revert i; induction data as [|b rest IH]; simpl; intros i H; [discriminate|].
  destruct (Byte.eqb b value).
  - injection H as <-. lia.
  - destruct (indexOf rest value) as [j|]; [|discriminate].
    injection H as <-. specialize (IH j eq_refl). lia.
Qed.

(** * Construction *)

Lemma defaults_set (object : ProtocolOptions) (source : ProtocolDefinition) :
  (forall v, opt_messageMaxLength object = Some v ->
             messageMaxLength (defaults object source) = v)
  /\ (forall v, opt_endByte object = Some v ->
                endByte (defaults object source) = v)
  /\ (forall v, opt_escapeByte object = Some v ->
                escapeByte (defaults object source) = v)
  /\ (forall v, opt_escapeRules object = Some v ->
                escapeRules (defaults object source) = v).
Proof. unfold defaults; simpl. repeat split; now intros v ->. Qed.

Lemma defaults_unset (object : ProtocolOptions) (source : ProtocolDefinition) :
  (opt_messageMaxLength object = None ->
   messageMaxLength (defaults object source) = messageMaxLength source)
  /\ (opt_endByte object = None ->
      endByte (defaults object source) = endByte source)
  /\ (opt_escapeByte object = None ->
      escapeByte (defaults object source) = escapeByte source)
  /\ (opt_escapeRules object = None ->
      escapeRules (defaults object source) = escapeRules source).
Proof. unfold defaults; simpl. repeat split; now intros ->. Qed.

(** Without a protocol argument the instance works with the default
    definition. *)
Lemma new_SLIP_default s :
  protocol_ (fst (new_SLIP None s)) = defaultProtocolDefinition
  /\ endByte_ (fst (new_SLIP None s)) = xc0
  /\ appliedProtocol (snd (new_SLIP None s)) = defaultProtocolDefinition.
Proof. repeat split. Qed.

(** The instance ends frames with the end byte of the definition that
    the codec was given, and the closure variables are left alone. *)
Lemma new_SLIP_store protocol s :
  let r := new_SLIP protocol s in
  appliedProtocol (snd r) = protocol_ (fst r)
  /\ endByte_ (fst r) = endByte (appliedProtocol (snd r))
  /\ temporaryBuffer (snd r) = temporaryBuffer s
  /\ writeCursor (snd r) = writeCursor s.
Proof. repeat split. Qed.

(** * The loop unfolded *)

Lemma collect_unfold this data s :
  collectDataAndFireMessageEvent_ this data s =
  match indexOf data (endByte_ this) with
  | None => (copyToTemporary data (length data) s, [])
  | Some endIndex =>
      let s1 := if 0 <? endIndex then copyToTemporary data endIndex s else s in
      let fired := fire s1 in
      let s2 := resetCursor s1 in
      if endIndex <? length data - 1 then
        let r := collectDataAndFireMessageEvent_ this
                   (slice data (endIndex + 1) (length data)) s2 in
        (fst r, fired ++ snd r)
      else (s2, fired)
  end.
Proof.
  simp collectDataAndFireMessageEvent_.
  unfold collectDataAndFireMessageEvent__unfold_clause_1.
  destruct (indexOf data (endByte_ this)); reflexivity.
Qed.

(** * Copying into the temporary buffer *)

Lemma store_eq (s t : Store) :
  appliedProtocol s = appliedProtocol t ->
  temporaryBuffer s = temporaryBuffer t ->
  writeCursor s = writeCursor t -> s = t.
Proof. destruct s, t; simpl; intros; subst; reflexivity. Qed.

Lemma copyToTemporary_appended data n s :
  n <= length data ->
  copyToTemporary data n s = appended (firstn n data) s.
Proof.
  intros Hn. unfold copyToTemporary, copy, appended, room.
  rewrite length_firstn, (Nat.min_l n) by lia.
  destruct (length (temporaryBuffer s) <=? writeCursor s) eqn:Hfull; simpl.
  - apply Nat.leb_le in Hfull.
    replace (length (temporaryBuffer s) - writeCursor s) with 0 by lia.
    rewrite Nat.min_0_r, Nat.add_0_r. simpl.
    rewrite firstn_skipn. apply store_eq; simpl; auto.
  - apply Nat.leb_gt in Hfull.
    destruct (n <=? 0) eqn:Hn0.
    + apply Nat.leb_le in Hn0. assert (n = 0) by lia. subst n. simpl.
      rewrite Nat.add_0_r, firstn_nil. simpl.
      rewrite firstn_skipn. apply store_eq; simpl; auto.
    + apply Nat.leb_gt in Hn0. rewrite !Nat.sub_0_r.
      rewrite (Nat.min_l (Nat.min _ _) (length data)) by lia.
      apply store_eq; simpl; auto.
      f_equal. f_equal.
      rewrite firstn_firstn. f_equal. lia.
Qed.

Lemma appended_nil s : appended [] s = s.
Proof.
  unfold appended. simpl. rewrite firstn_nil, Nat.add_0_r. simpl.
  rewrite firstn_skipn. destruct s; reflexivity.
Qed.

Lemma appended_app a b s :
  appended (a ++ b) s = appended b (appended a s).
Proof.
  unfold appended, room; simpl.
  set (w := writeCursor s). set (buf := temporaryBuffer s).
  destruct (Nat.le_gt_cases (length buf) w) as [Hfull|Hfree].
  - (* the buffer is full: nothing is written by either call *)
    replace (length buf - w) with 0 by lia.
    rewrite !Nat.min_0_r, !firstn_O, Nat.add_0_r. simpl.
    rewrite firstn_skipn.
    replace (length buf - w) with 0 by lia.
    rewrite !Nat.min_0_r, !firstn_O, Nat.add_0_r. simpl.
    rewrite firstn_skipn. reflexivity.
  - set (na := Nat.min (length a) (length buf - w)).
    assert (Hlen1 : length (firstn w buf ++ firstn (length buf - w) a
                              ++ skipn (w + na) buf) = length buf).
    { rewrite !length_app, !length_firstn, length_skipn. subst na. lia. }
    rewrite Hlen1.
    assert (Hfa : length (firstn (length buf - w) a) = na).
    { rewrite length_firstn. subst na. lia. }
    assert (Hfw : length (firstn w buf) = w).
    { rewrite length_firstn. lia. }
    apply store_eq; simpl; fold w buf na.
    + reflexivity.
    + set (X := firstn w buf) in *.
      set (Y := firstn (length buf - w) a) in *.
      set (Z := skipn (w + na) buf) in *.
      assert (A1 : firstn (w + na) (X ++ Y ++ Z) = X ++ Y).
      { rewrite app_assoc, firstn_app, length_app, Hfw, Hfa.
        rewrite firstn_all2 by (rewrite length_app; lia).
        replace (w + na - (w + na)) with 0 by lia.
        now rewrite firstn_O, app_nil_r. }
      assert (A2 : forall k, skipn (w + na + k) (X ++ Y ++ Z)
                             = skipn (w + na + k) buf).
      { intros k. rewrite app_assoc, skipn_app, length_app, Hfw, Hfa.
        rewrite skipn_all2 by (rewrite length_app; lia).
        simpl. subst Z. rewrite skipn_skipn. f_equal. lia. }
      rewrite A1, A2, <- app_assoc. f_equal.
      rewrite firstn_app. fold Y. rewrite <- app_assoc. f_equal.
      f_equal; [f_equal; subst na; lia|].
      f_equal. rewrite length_app. subst na. lia.
    + rewrite length_app. subst na. lia.
Qed.

Lemma appended_cons b rest s :
  appended (b :: rest) s = appended rest (appended [b] s).
Proof. exact (appended_app [b] rest s). Qed.

(** * The loop, byte by byte *)

Lemma indexOf_None data value :
  indexOf data value = None <-> ~ In value data.
Proof.
  induction data as [|b rest IH]; simpl.
  - tauto.
  - destruct (byte_eqb_spec b value) as [->|Hne].
    + split; [discriminate | intros H; exfalso; apply H; now left].
    + destruct (indexOf rest value) as [j|].
      * split; [discriminate|]. intros H. exfalso.
        assert (Hin : ~ In value rest) by tauto.
        apply IH in Hin. discriminate.
      * split; [|reflexivity]. intros _ [H|H]; [congruence|].
        now apply IH.
Qed.

Lemma indexOf_Some data value i :
  indexOf data value = Some i ->
  data = firstn i data ++ value :: skipn (S i) data
  /\ indexOf (firstn i data) value = None.
Proof.
  revert i; induction data as [|b rest IH]; simpl; intros i H; [discriminate|].
  destruct (byte_eqb_spec b value) as [->|Hne].
  - injection H as <-. simpl. auto.
  - destruct (indexOf rest value) as [j|] eqn:Hj; [|discriminate].
    injection H as <-. destruct (IH j eq_refl) as [Heq Hnone].
    simpl. rewrite Hnone, (byte_eqb_neq _ _ Hne). split; [|reflexivity].
    f_equal. exact Heq.
Qed.

Section ByteByByte.

Variable this : SLIP.

Lemma steps_app a b s :
  steps this (a ++ b) s =
  (fst (steps this b (fst (steps this a s))),
   snd (steps this a s) ++ snd (steps this b (fst (steps this a s)))).
Proof.
  revert s; induction a as [|x a IH]; intros s; simpl.
  - now destruct (steps this b s).
  - rewrite IH. simpl. now rewrite app_assoc.
Qed.

Lemma steps_no_end data s :
  indexOf data (endByte_ this) = None ->
  steps this data s = (appended data s, []).
Proof.
  revert s; induction data as [|b rest IH]; intros s H; simpl.
  - now rewrite appended_nil.
  - simpl in H. unfold step.
    destruct (Byte.eqb b (endByte_ this)); [discriminate|].
    destruct (indexOf rest (endByte_ this)); [discriminate|].
    simpl. rewrite IH by reflexivity. simpl.
    now rewrite <- appended_cons.
Qed.

Lemma steps_end s :
  steps this [endByte_ this] s = (resetCursor s, fire s).
Proof.
  simpl. unfold step. rewrite byte_eqb_refl. simpl. now rewrite app_nil_r.
Qed.

(** The loop of slip.js computes [steps]. *)
Lemma collect_steps data s :
  collectDataAndFireMessageEvent_ this data s = steps this data s.
Proof.
  remember (length data) as n eqn:Hn.
  revert data s Hn.
  induction n as [n IH] using lt_wf_ind; intros data s Hn.
  rewrite collect_unfold.
  destruct (indexOf data (endByte_ this)) as [i|] eqn:Hi.
  - pose proof (indexOf_lt _ _ _ Hi) as Hlt.
    destruct (indexOf_Some _ _ _ Hi) as [Hsplit Hpre].
    assert (Hs1 : (if 0 <? i then copyToTemporary data i s else s)
                  = appended (firstn i data) s).
    { destruct (0 <? i) eqn:H0.
      - apply copyToTemporary_appended. lia.
      - apply Nat.ltb_ge in H0. assert (i = 0) by lia. subst i.
        simpl. now rewrite appended_nil. }
    cbv zeta. rewrite Hs1.
    set (s1 := appended (firstn i data) s).
    assert (Hsteps : steps this data s =
              (fst (steps this (skipn (S i) data) (resetCursor s1)),
               fire s1 ++ snd (steps this (skipn (S i) data) (resetCursor s1)))).
    { rewrite Hsplit at 1.
      rewrite steps_app, (steps_no_end _ _ Hpre). cbn [fst snd app].
      change (endByte_ this :: skipn (S i) data)
        with ([endByte_ this] ++ skipn (S i) data).
      rewrite steps_app, steps_end. reflexivity. }
    rewrite Hsteps.
    destruct (i <? length data - 1) eqn:Hmore.
    + apply Nat.ltb_lt in Hmore.
      assert (Hslice : slice data (i + 1) (length data) = skipn (S i) data).
      { unfold slice. rewrite Nat.add_1_r.
        apply firstn_all2. rewrite length_skipn. lia. }
      rewrite Hslice.
      rewrite (IH (length (skipn (S i) data))) with (data := skipn (S i) data);
        [reflexivity | rewrite length_skipn; lia | reflexivity].
    + apply Nat.ltb_ge in Hmore.
      rewrite (skipn_all2 data) by lia. simpl. now rewrite app_nil_r.
  - rewrite copyToTemporary_appended by lia.
    rewrite firstn_all. symmetry. now apply steps_no_end.
Qed.

Lemma receive_steps chunks s :
  receive this chunks s = steps this (concat chunks) s.
Proof.
  revert s; induction chunks as [|c cs IH]; intros s; simpl.
  - reflexivity.
  - rewrite steps_app, IH, collect_steps. reflexivity.
Qed.

End ByteByByte.

(** * What the store holds *)

Lemma appended_length bytes s :
  length (temporaryBuffer (appended bytes s)) = length (temporaryBuffer s).
Proof.
  unfold appended, room; simpl.
  rewrite !length_app, !length_firstn, length_skipn. lia.
Qed.

Lemma appended_cursor bytes s :
  writeCursor (appended bytes s) = writeCursor s + Nat.min (length bytes) (room s).
Proof. reflexivity. Qed.

Lemma appended_inBounds bytes s : inBounds s -> inBounds (appended bytes s).
Proof.
  unfold inBounds. rewrite appended_length, appended_cursor. unfold room. lia.
Qed.

Lemma appended_pending bytes s :
  inBounds s ->
  pending (appended bytes s) = pending s ++ firstn (room s) bytes.
Proof.
  unfold inBounds, pending, appended, room; simpl; intros Hb.
  set (w := writeCursor s) in *. set (buf := temporaryBuffer s) in *.
  rewrite app_assoc, firstn_app, length_app, !length_firstn.
  replace (w + Nat.min (length bytes) (length buf - w)
           - (Nat.min w (length buf)
              + Nat.min (length buf - w) (length bytes))) with 0 by lia.
  rewrite firstn_O, app_nil_r.
  apply firstn_all2. rewrite length_app, !length_firstn. lia.
Qed.

Lemma pending_length s : inBounds s -> length (pending s) = writeCursor s.
Proof. unfold inBounds, pending. rewrite length_firstn. lia. Qed.

Lemma resetCursor_pending s : pending (resetCursor s) = [].
Proof. reflexivity. Qed.

Lemma resetCursor_inBounds s : inBounds (resetCursor s).
Proof. unfold inBounds; simpl. lia. Qed.

(** Inside the bounds, [messageBuffer] is the pending frame, and a
    message is fired exactly when the frame is not empty and decodes. *)
Lemma fire_delivered s :
  inBounds s -> fire s = delivered (appliedProtocol s) (pending s).
Proof.
  unfold inBounds, fire, pending, copy, allocUnsafe; intros Hb.
  destruct (writeCursor s) as [|w] eqn:Hw; [reflexivity|].
  change (0 <? S w) with true. cbv iota.
  rewrite repeat_length, !Nat.sub_0_r.
  change (S w <=? 0) with false. cbv iota. simpl orb. cbv iota.
  rewrite Nat.min_id, Nat.min_l by lia.
  rewrite Nat.add_0_l.
  rewrite (@skipn_all2 _ (S w) (repeat x00 (S w)))
    by (rewrite repeat_length; lia).
  cbn [fst firstn skipn app]. rewrite app_nil_r.
  destruct (temporaryBuffer s) as [|b buf]; [simpl in Hb; lia|].
  reflexivity.
Qed.

Lemma step_protocol this b s :
  appliedProtocol (fst (step this b s)) = appliedProtocol s.
Proof. unfold step. now destruct (Byte.eqb b (endByte_ this)). Qed.

Lemma step_length this b s :
  length (temporaryBuffer (fst (step this b s))) = length (temporaryBuffer s).
Proof.
  unfold step. destruct (Byte.eqb b (endByte_ this)); simpl fst.
  - reflexivity.
  - apply appended_length.
Qed.

Create HintDb store.
#[global] Hint Resolve appended_inBounds resetCursor_inBounds : store.

Lemma step_inBounds this b s : inBounds s -> inBounds (fst (step this b s)).
Proof.
  unfold step. destruct (Byte.eqb b (endByte_ this)); simpl fst;
    auto with store.
Qed.

Lemma steps_protocol this data s :
  appliedProtocol (fst (steps this data s)) = appliedProtocol s.
Proof.
  revert s; induction data as [|b rest IH]; intros s; simpl; [reflexivity|].
  now rewrite IH, step_protocol.
Qed.

Lemma steps_length this data s :
  length (temporaryBuffer (fst (steps this data s)))
  = length (temporaryBuffer s).
Proof.
  revert s; induction data as [|b rest IH]; intros s; simpl; [reflexivity|].
  now rewrite IH, step_length.
Qed.

Lemma steps_inBounds this data s :
  inBounds s -> inBounds (fst (steps this data s)).
Proof.
  revert s; induction data as [|b rest IH]; intros s H; simpl; [exact H|].
  apply IH. now apply step_inBounds.
Qed.

#[global] Hint Resolve step_inBounds steps_inBounds : store.

(** The buffer has 10 KiB. *)
Lemma capacity_value : N.of_nat capacity = 10240%N.
Proof. vm_compute. reflexivity. Qed.

Lemma loaded_length garbage :
  length (temporaryBuffer (loaded garbage)) = capacity.
Proof.
  unfold loaded, allocUnsafe; cbn [temporaryBuffer].
  rewrite length_firstn, length_app, repeat_length. lia.
Qed.

Lemma reachable_sized s :
  reachable s -> length (temporaryBuffer s) = capacity /\ inBounds s.
Proof.
  induction 1 as [g | protocol s _ [IHl IHb] | this data s _ [IHl IHb]].
  - split; [apply loaded_length | unfold inBounds; simpl; lia].
  - split; [exact IHl | exact IHb].
  - rewrite collect_steps. split.
    + now rewrite steps_length.
    + now apply steps_inBounds.
Qed.

(** * Frames of a stream *)

Lemma delivered_at_most_one protocol frame :
  length (delivered protocol frame) <= 1.
Proof.
  unfold delivered. destruct frame; [simpl; lia|].
  destruct (unescape protocol (b :: frame)); simpl; lia.
Qed.

Lemma framesOf_count e cur stream :
  length (fst (framesOf e cur stream)) = count_occ Byte.byte_eq_dec stream e.
Proof.
  revert cur; induction stream as [|b rest IH]; intros cur; simpl.
  - reflexivity.
  - destruct (byte_eqb_spec b e) as [->|Hne].
    + destruct (Byte.byte_eq_dec e e); [|congruence]. simpl. now rewrite IH.
    + destruct (Byte.byte_eq_dec b e); [congruence|]. apply IH.
Qed.

Lemma framesOf_rest_open e cur stream :
  ~ In e cur -> ~ In e (snd (framesOf e cur stream)).
Proof.
  revert cur; induction stream as [|b rest IH]; intros cur Hcur; simpl.
  - exact Hcur.
  - destruct (byte_eqb_spec b e) as [->|Hne]; simpl.
    + apply IH. intros [].
    + apply IH. rewrite in_app_iff. simpl. intros [H|[H|[]]]; auto.
Qed.

Lemma flat_map_at_most_one {A B} (f : A -> list B) (l : list A) :
  (forall a, length (f a) <= 1) -> length (flat_map f l) <= length l.
Proof.
  intros Hf. induction l as [|a l IH]; simpl; [lia|].
  rewrite length_app. specialize (Hf a). lia.
Qed.

(** The messages of a stream are those of its terminated frames, in
    order; what stays in the buffer is its unterminated rest.  [cur] is
    the frame the store was collecting, before the buffer cut it. *)
Lemma steps_frames this data :
  forall s cur,
    inBounds s ->
    pending s = firstn (length (temporaryBuffer s)) cur ->
    snd (steps this data s)
    = flat_map (fun f => delivered (appliedProtocol s)
                           (firstn (length (temporaryBuffer s)) f))
               (fst (framesOf (endByte_ this) cur data))
    /\ pending (fst (steps this data s))
       = firstn (length (temporaryBuffer s))
                (snd (framesOf (endByte_ this) cur data)).
Proof.
  induction data as [|b rest IH]; intros s cur Hb Hcur.
  - simpl. auto.
  - cbn [steps framesOf]. unfold step.
    destruct (Byte.eqb b (endByte_ this)); cbn [fst snd].
    + destruct (IH (resetCursor s) [] (resetCursor_inBounds s)) as [Hm Hp].
      { rewrite resetCursor_pending. now rewrite firstn_nil. }
      cbn [resetCursor temporaryBuffer appliedProtocol] in Hm, Hp.
      cbn [flat_map]. rewrite Hm, Hp, fire_delivered, Hcur by exact Hb.
      auto.
    + destruct (IH (appended [b] s) (cur ++ [b])) as [Hm Hp].
      { auto with store. }
      { rewrite appended_pending, appended_length, Hcur by exact Hb.
        rewrite firstn_app. f_equal. f_equal. unfold room.
        rewrite <- (pending_length _ Hb), Hcur, length_firstn. lia. }
      rewrite appended_length in Hm, Hp. cbn [appended appliedProtocol] in Hm.
      rewrite Hm, Hp. auto.
Qed.

(** * The codec *)

Lemma ruleFor_Some rules b r :
  ruleFor rules b = Some r -> In r rules /\ initialFragment r = b.
Proof.
  unfold ruleFor. intros H. apply find_some in H. destruct H as [Hin Heq].
  split; [exact Hin | now apply Byte.byte_dec_bl].
Qed.

Lemma ruleFor_None rules b :
  ruleFor rules b = None -> ~ In b (map initialFragment rules).
Proof.
  unfold ruleFor. intros H Hin. apply in_map_iff in Hin.
  destruct Hin as [r [Hr Hin]].
  pose proof (find_none _ _ H _ Hin) as Hf. cbv beta in Hf.
  rewrite Hr, byte_eqb_refl in Hf. discriminate.
Qed.

(** With pairwise distinct replacements, the replacement of a rule leads
    back to that rule. *)
Lemma ruleOfReplacement_of_rule rules r :
  NoDup (map replacement rules) -> In r rules ->
  ruleOfReplacement rules (replacement r) = Some r.
Proof.
  unfold ruleOfReplacement.
  induction rules as [|r0 rules IH]; intros Hnd Hin; [destruct Hin|].
  simpl in Hnd. apply NoDup_cons_iff in Hnd. destruct Hnd as [Hfresh Hnd].
  simpl. destruct Hin as [->|Hin].
  - now rewrite byte_eqb_refl.
  - destruct (byte_eqb_spec (replacement r0) (replacement r)) as [Heq|Hne].
    + exfalso. apply Hfresh. rewrite Heq. now apply in_map.
    + now apply IH.
Qed.

(** Decoding an encoded payload followed by [rest]: the payload comes
    back, and decoding goes on with [rest]. *)
Lemma unescape_SLIPMessage_app protocol payload rest :
  NoDup (map replacement (escapeRules protocol)) ->
  (In (escapeByte protocol) payload ->
   In (escapeByte protocol) (map initialFragment (escapeRules protocol))) ->
  unescape protocol (SLIPMessage protocol payload ++ rest)
  = match unescape protocol rest with
    | Some m => Some (payload ++ m)
    | None => None
    end.
Proof.
  intros Hnd. induction payload as [|b payload IH]; intros Hesc.
  - simpl. now destruct (unescape protocol rest).
  - assert (Hesc' : In (escapeByte protocol) payload ->
              In (escapeByte protocol)
                 (map initialFragment (escapeRules protocol))).
    { intros H. apply Hesc. now right. }
    specialize (IH Hesc').
    cbn [SLIPMessage flat_map]. fold (SLIPMessage protocol payload).
    unfold escapeOne.
    destruct (ruleFor (escapeRules protocol) b) as [r|] eqn:Hr.
    + destruct (ruleFor_Some _ _ _ Hr) as [Hin Hb].
      cbn [app unescape]. rewrite byte_eqb_refl.
      rewrite (ruleOfReplacement_of_rule _ _ Hnd Hin), IH, Hb.
      now destruct (unescape protocol rest).
    + cbn [app unescape].
      destruct (byte_eqb_spec b (escapeByte protocol)) as [Heq|Hne].
      * exfalso. apply (ruleFor_None _ _ Hr). rewrite Heq.
        apply Hesc. left. now symmetry.
      * rewrite IH. now destruct (unescape protocol rest).
Qed.

Lemma unescape_SLIPMessage protocol payload :
  codec protocol ->
  unescape protocol (SLIPMessage protocol payload) = Some payload.
Proof.
  intros [_ _ Hesc _ Hnd].
  rewrite <- (app_nil_r (SLIPMessage protocol payload)).
  rewrite unescape_SLIPMessage_app by auto.
  simpl. now rewrite app_nil_r.
Qed.

(** An encoded payload never contains the end byte. *)
Lemma SLIPMessage_no_end protocol payload :
  codec protocol -> ~ In (endByte protocol) (SLIPMessage protocol payload).
Proof.
  intros [Hne Hend _ Hrep _].
  induction payload as [|b payload IH]; [intros []|].
  cbn [SLIPMessage flat_map]. fold (SLIPMessage protocol payload).
  rewrite in_app_iff. intros [H|H]; [|now apply IH].
  unfold escapeOne in H.
  destruct (ruleFor (escapeRules protocol) b) as [r|] eqn:Hr.
  - destruct (ruleFor_Some _ _ _ Hr) as [Hin _].
    destruct H as [H|[H|[]]]; [congruence|].
    apply Hrep. rewrite <- H. now apply in_map.
  - destruct H as [H|[]]. subst b. now apply (ruleFor_None _ _ Hr).
Qed.

Lemma SLIPMessage_length protocol payload :
  length payload <= length (SLIPMessage protocol payload).
Proof.
  induction payload as [|b payload IH]; [simpl; lia|].
  cbn [SLIPMessage flat_map]. fold (SLIPMessage protocol payload).
  rewrite length_app. unfold escapeOne.
  destruct (ruleFor (escapeRules protocol) b); simpl; lia.
Qed.

Lemma codec_default : codec defaultProtocolDefinition.
Proof.
  constructor; simpl.
  - discriminate.
  - now left.
  - right. now left.
  - intros [H|[H|[]]]; discriminate.
  - repeat constructor; simpl; intuition discriminate.
Qed.

(** Under the default definition every payload comes back, reserved bytes
    included. *)
Lemma unescape_SLIPMessage_default payload :
  unescape defaultProtocolDefinition
    (SLIPMessage defaultProtocolDefinition payload) = Some payload.
Proof. apply unescape_SLIPMessage, codec_default. Qed.

(** Escape coverage under the default definition: C0 travels as DB DC and
    DB as DB DD. *)
Example escape_coverage :
  SLIPMessage defaultProtocolDefinition [xc0] = [xdb; xdc]
  /\ SLIPMessage defaultProtocolDefinition [xdb] = [xdb; xdd]
  /\ unescape defaultProtocolDefinition [xdb; xdc] = Some [xc0]
  /\ unescape defaultProtocolDefinition [xdb; xdd] = Some [xdb].
Proof. repeat split. Qed.

(** * One chunk, one frame *)

Lemma not_In_indexOf data value : ~ In value data -> indexOf data value = None.
Proof. apply indexOf_None. Qed.

(** A chunk without end byte is written behind the cursor as far as it
    fits, and nothing is emitted. *)
Lemma collect_no_end this data s :
  indexOf data (endByte_ this) = None ->
  collectDataAndFireMessageEvent_ this data s = (appended data s, []).
Proof. intros H. rewrite collect_steps. now apply steps_no_end. Qed.

(** A chunk that is one frame and its end byte: the frame joins what was
    pending, as far as it fits, the result is delivered and the cursor
    goes back to 0. *)
Lemma collect_frame this frame s :
  inBounds s ->
  ~ In (endByte_ this) frame ->
  collectDataAndFireMessageEvent_ this (frame ++ [endByte_ this]) s
  = (resetCursor (appended frame s),
     delivered (appliedProtocol s) (pending s ++ firstn (room s) frame)).
Proof.
  intros Hb Hno. apply not_In_indexOf in Hno.
  rewrite collect_steps, steps_app, (steps_no_end _ _ _ Hno), steps_end.
  cbn [fst snd app].
  rewrite fire_delivered, appended_pending by auto with store.
  reflexivity.
Qed.

Lemma pending_fresh s : writeCursor s = 0 -> pending s = [].
Proof. unfold pending. now intros ->. Qed.

Lemma collect_frame_fresh this frame s :
  writeCursor s = 0 ->
  ~ In (endByte_ this) frame ->
  length frame <= length (temporaryBuffer s) ->
  collectDataAndFireMessageEvent_ this (frame ++ [endByte_ this]) s
  = (resetCursor (appended frame s), delivered (appliedProtocol s) frame).
Proof.
  intros Hw Hno Hfit.
  rewrite collect_frame by (auto; unfold inBounds; lia).
  rewrite (pending_fresh _ Hw). unfold room. rewrite Hw, Nat.sub_0_r.
  now rewrite firstn_all2.
Qed.

Lemma delivered_SLIPMessage protocol payload :
  codec protocol -> payload <> [] ->
  delivered protocol (SLIPMessage protocol payload) = [payload].
Proof.
  intros Hc Hne. unfold delivered.
  rewrite (unescape_SLIPMessage _ payload Hc).
  destruct (SLIPMessage protocol payload) eqn:E; [|reflexivity].
  pose proof (SLIPMessage_length protocol payload) as Hl.
  rewrite E in Hl. destruct payload; [congruence | simpl in Hl; lia].
Qed.

(** A frame written by [sendMessage], arriving in one chunk at a store
    that is collecting nothing, is emitted as its payload. *)
Lemma collect_sendMessage this s payload :
  codec (appliedProtocol s) ->
  endByte_ this = endByte (appliedProtocol s) ->
  writeCursor s = 0 ->
  payload <> [] ->
  length (SLIPMessage (appliedProtocol s) payload)
    <= length (temporaryBuffer s) ->
  collectDataAndFireMessageEvent_ this (sendMessage this s payload) s
  = (resetCursor (appended (SLIPMessage (appliedProtocol s) payload) s),
     [payload]).
Proof.
  intros Hc He Hw Hne Hfit. unfold sendMessage.
  rewrite collect_frame_fresh; auto.
  - now rewrite delivered_SLIPMessage.
  - rewrite He. now apply SLIPMessage_no_end.
Qed.

Lemma firstStore_reachable : reachable firstStore.
Proof. unfold firstStore. apply reach_new, reach_loaded. Qed.

(** The scenario of the specification: payload 01 C0 02 goes out as
    01 DB DC 02 C0 and comes back from the chunks 01 DB and DC 02 C0. *)
Example scenario_wire :
  sendMessage firstInstance firstStore [x01; xc0; x02]
  = [x01; xdb; xdc; x02; xc0].
Proof. reflexivity. Qed.

Example scenario_two_chunks :
  snd (receive firstInstance [[x01; xdb]; [xdc; x02; xc0]] firstStore)
  = [[x01; xc0; x02]].
Proof. vm_compute. reflexivity. Qed.

(** * Chunk boundaries *)

Lemma receive_split this s wire k :
  receive this [firstn k wire; skipn k wire] s = receive this [wire] s.
Proof.
  rewrite !receive_steps. cbn [concat].
  now rewrite !app_nil_r, firstn_skipn.
Qed.

Lemma receive_one this data s :
  receive this [data] s = collectDataAndFireMessageEvent_ this data s.
Proof.
  cbn [receive fst snd]. rewrite app_nil_r.
  now destruct (collectDataAndFireMessageEvent_ this data s).
Qed.

(** The frames [sendMessage] writes can be cut anywhere. *)
Lemma sendMessage_split this s payload k :
  let wire := sendMessage this s payload in
  receive this [firstn k wire; skipn k wire] s
  = collectDataAndFireMessageEvent_ this wire s.
Proof. intros wire. now rewrite receive_split, receive_one. Qed.

(** C1.  Chunk-boundary independence: for every byte sequence [wire], in
    particular every encoded frame followed by its end byte, and every
    split point [k], delivering the two pieces [firstn k wire] and
    [skipn k wire] as two chunks leaves the same store and emits the same
    messages, in the same order, as delivering [wire] as one chunk. *)
Theorem chunk_boundary_independence this s wire k :
  receive this [firstn k wire; skipn k wire] s = receive this [wire] s.
Proof. apply receive_split. Qed.

(** * Several frames in one chunk *)

(** An empty payload travels as a lone end byte and is not emitted: the
    chunk for the payloads [[]] and [[x01]] yields one message, not two.
    A payload longer than the buffer is cut: of [capacity + 1] bytes the
    first [capacity] are emitted. *)
Lemma two_frames_not_always_two_messages :
  (let chunk := sendMessage firstInstance firstStore []
                ++ sendMessage firstInstance firstStore [x01] in
   chunk = [xc0; x01; xc0]
   /\ snd (collectDataAndFireMessageEvent_ firstInstance chunk firstStore)
      = [[x01]]
   /\ snd (collectDataAndFireMessageEvent_ firstInstance chunk firstStore)
      <> [[]; [x01]])
  /\ (let m1 := repeat x01 (capacity + 1) in
      let chunk := sendMessage firstInstance firstStore m1
                   ++ sendMessage firstInstance firstStore [x02] in
      snd (collectDataAndFireMessageEvent_ firstInstance chunk firstStore)
      = [repeat x01 capacity; [x02]]).
Proof.
  split.
  - vm_compute. repeat split. discriminate.
  - vm_compute. reflexivity.
Qed.

(** C2 (amended).  Multi-frame-per-chunk: under a protocol definition that
    is a codec, at a reachable store that is collecting nothing, for all
    non-empty payloads [m1] and [m2] whose encodings fit in the
    [capacity] bytes of the buffer, the chunk made of the frame of [m1],
    the end byte, the frame of [m2] and the end byte emits exactly [m1]
    and then [m2]. *)
Theorem two_frames_in_one_chunk this s m1 m2 :
  reachable s ->
  writeCursor s = 0 ->
  codec (appliedProtocol s) ->
  endByte_ this = endByte (appliedProtocol s) ->
  m1 <> [] -> m2 <> [] ->
  length (SLIPMessage (appliedProtocol s) m1) <= capacity ->
  length (SLIPMessage (appliedProtocol s) m2) <= capacity ->
  snd (collectDataAndFireMessageEvent_ this
         (SLIPMessage (appliedProtocol s) m1 ++ [endByte_ this]
            ++ SLIPMessage (appliedProtocol s) m2 ++ [endByte_ this]) s)
  = [m1; m2].
Proof.
  intros Hr Hw Hc He Hm1 Hm2 Hf1 Hf2.
  destruct (reachable_sized s Hr) as [Hlen Hb].
  set (P := appliedProtocol s) in *.
  assert (Hno : forall m, ~ In (endByte_ this) (SLIPMessage P m)).
  { intros m. rewrite He. now apply SLIPMessage_no_end. }
  rewrite app_assoc, collect_steps, steps_app, <- !collect_steps.
  rewrite (collect_frame_fresh this (SLIPMessage P m1) s Hw (Hno m1))
    by lia.
  cbn [fst snd].
  rewrite (collect_frame_fresh this (SLIPMessage P m2)
             (resetCursor (appended (SLIPMessage P m1) s)) eq_refl (Hno m2))
    by (cbn [resetCursor temporaryBuffer]; rewrite appended_length; lia).
  cbn [snd resetCursor appliedProtocol appended]. fold P.
  now rewrite !delivered_SLIPMessage.
Qed.

Lemma two_frames_in_one_chunk_witness :
  snd (collectDataAndFireMessageEvent_ firstInstance
         (SLIPMessage (appliedProtocol firstStore) [x01; xc0; x02]
            ++ [endByte_ firstInstance]
            ++ SLIPMessage (appliedProtocol firstStore) [xdb]
            ++ [endByte_ firstInstance]) firstStore)
  = [[x01; xc0; x02]; [xdb]].
Proof.
  apply (two_frames_in_one_chunk firstInstance firstStore [x01; xc0; x02] [xdb]).
  - exact firstStore_reachable.
  - reflexivity.
  - exact codec_default.
  - reflexivity.
  - discriminate.
  - discriminate.
  - by_computation.
  - by_computation.
Defined.

(** * Round trip *)

(** Two rules that share a replacement: the default rules and, besides,
    01 -> AA and 02 -> AA.  The payload 02 holds neither the end byte nor
    the escape byte; it travels as DB AA and comes back as 01, the
    initial fragment of the first rule with that replacement. *)
Lemma shared_replacement_breaks_roundtrip :
  let protocol := {|
    messageMaxLength := 256;
    endByte := xc0;
    escapeByte := xdb;
    escapeRules :=
      [ {| initialFragment := xc0; replacement := xdc |};
        {| initialFragment := xdb; replacement := xdd |};
        {| initialFragment := x01; replacement := xaa |};
        {| initialFragment := x02; replacement := xaa |} ]
  |} in
  ~ In (endByte protocol) [x02]
  /\ ~ In (escapeByte protocol) [x02]
  /\ SLIPMessage protocol [x02] = [xdb; xaa]
  /\ unescape protocol (SLIPMessage protocol [x02]) = Some [x01]
  /\ unescape protocol (SLIPMessage protocol [x02]) <> Some [x02].
Proof.
  intros protocol. repeat split.
  - simpl. intuition discriminate.
  - simpl. intuition discriminate.
  - vm_compute. discriminate.
Qed.

(** C3 (amended).  Round-trip law: for a protocol definition whose rules
    have pairwise distinct replacements, and every payload [p] in which
    neither the end byte nor the escape byte occurs, decoding the encoding
    of [p] yields [p]. *)
Theorem unescape_SLIPMessage_roundtrip protocol p :
  NoDup (map replacement (escapeRules protocol)) ->
  ~ In (endByte protocol) p ->
  ~ In (escapeByte protocol) p ->
  unescape protocol (SLIPMessage protocol p) = Some p.
Proof.
  intros Hnd _ Hesc.
  rewrite <- (app_nil_r (SLIPMessage protocol p)).
  rewrite unescape_SLIPMessage_app by tauto.
  simpl. now rewrite app_nil_r.
Qed.

Lemma unescape_SLIPMessage_roundtrip_witness :
  unescape defaultProtocolDefinition
    (SLIPMessage defaultProtocolDefinition [x01; x02; xff])
  = Some [x01; x02; xff].
Proof.
  apply (unescape_SLIPMessage_roundtrip defaultProtocolDefinition [x01; x02; xff]).
  - simpl. repeat constructor; simpl; intuition discriminate.
  - simpl. intuition discriminate.
  - simpl. intuition discriminate.
Defined.

(** * Empty frames *)

Lemma steps_ended this data s :
  steps this (data ++ [endByte_ this]) s
  = (resetCursor (fst (steps this data s)),
     snd (steps this data s) ++ fire (fst (steps this data s))).
Proof. rewrite steps_app, steps_end. reflexivity. Qed.

Lemma fire_fresh s : writeCursor s = 0 -> fire s = [].
Proof. unfold fire. now intros ->. Qed.

(** C4.  Empty-frame suppression: an end byte that directly follows an end
    byte adds no message, so two end bytes delivered to a store that is
    collecting nothing emit nothing; and after every end byte the write
    cursor is 0, whatever was or was not emitted. *)
Theorem empty_frame_suppressed this s data :
  let e := endByte_ this in
  snd (collectDataAndFireMessageEvent_ this (data ++ [e; e]) s)
  = snd (collectDataAndFireMessageEvent_ this (data ++ [e]) s)
  /\ writeCursor (fst (collectDataAndFireMessageEvent_ this (data ++ [e]) s)) = 0
  /\ writeCursor (fst (collectDataAndFireMessageEvent_ this (data ++ [e; e]) s)) = 0
  /\ (writeCursor s = 0 ->
      snd (collectDataAndFireMessageEvent_ this [e; e] s) = []).
Proof.
  intros e. subst e.
  change (data ++ [endByte_ this; endByte_ this])
    with (data ++ [endByte_ this] ++ [endByte_ this]).
  rewrite app_assoc, !collect_steps.
  rewrite (steps_ended this (data ++ _)), !steps_ended. cbn [fst snd].
  rewrite (fire_fresh (resetCursor _)) by reflexivity.
  rewrite app_nil_r. repeat split.
  intros Hw. simpl. unfold step. rewrite byte_eqb_refl. cbn [fst snd].
  rewrite (fire_fresh s Hw). reflexivity.
Qed.

Lemma empty_frame_suppressed_witness :
  snd (collectDataAndFireMessageEvent_ firstInstance [xc0; xc0] firstStore) = [].
Proof.
  apply (empty_frame_suppressed firstInstance firstStore []).
  reflexivity.
Defined.

(** * Malformed frames *)

Lemma ruleOfReplacement_None rules c :
  ~ In c (map replacement rules) -> ruleOfReplacement rules c = None.
Proof.
  intros Hc. unfold ruleOfReplacement.
  destruct (find _ rules) as [r|] eqn:E; [|reflexivity].
  exfalso. apply Hc. apply find_some in E. destruct E as [Hin Heq].
  apply Byte.byte_dec_bl in Heq. rewrite <- Heq. now apply in_map.
Qed.

(** When the escape byte is not itself a replacement, a malformed frame
    does not decode. *)
Lemma malformed_unescape protocol frame :
  ~ In (escapeByte protocol) (map replacement (escapeRules protocol)) ->
  malformed protocol frame -> unescape protocol frame = None.
Proof.
  intros Hesc (pre & tail & -> & Htail).
  apply ruleOfReplacement_None in Hesc.
  remember (length pre) as n eqn:Hn. revert pre Hn.
  induction n as [n IH] using lt_wf_ind; intros pre Hn.
  destruct pre as [|b pre].
  - cbn [app unescape]. rewrite byte_eqb_refl.
    destruct tail as [|c tail]; [reflexivity|]. now rewrite Htail.
  - cbn [app unescape].
    destruct (byte_eqb_spec b (escapeByte protocol)) as [->|Hne].
    + destruct pre as [|c pre]; cbn [app].
      * now rewrite Hesc.
      * destruct (ruleOfReplacement (escapeRules protocol) c); [|reflexivity].
        rewrite (IH (length pre)); [reflexivity | simpl in Hn; lia | reflexivity].
    + rewrite (IH (length pre)); [reflexivity | simpl in Hn; lia | reflexivity].
Qed.

(** A frame that does not decode is dropped, and the frame that follows
    it is emitted. *)
Lemma undecodable_frame_dropped this s frame payload :
  reachable s ->
  writeCursor s = 0 ->
  codec (appliedProtocol s) ->
  endByte_ this = endByte (appliedProtocol s) ->
  unescape (appliedProtocol s) frame = None ->
  ~ In (endByte_ this) frame ->
  length frame <= capacity ->
  payload <> [] ->
  length (SLIPMessage (appliedProtocol s) payload) <= capacity ->
  let r := collectDataAndFireMessageEvent_ this (frame ++ [endByte_ this]) s in
  snd r = []
  /\ writeCursor (fst r) = 0
  /\ snd (collectDataAndFireMessageEvent_ this
            (sendMessage this s payload) (fst r)) = [payload].
Proof.
  intros Hr Hw Hc He Hbad Hno Hfit Hne Hfit' r.
  destruct (reachable_sized s Hr) as [Hlen Hb].
  subst r. rewrite (collect_frame_fresh this frame s Hw Hno) by lia.
  cbn [fst snd]. repeat split.
  - unfold delivered. rewrite Hbad. now destruct frame.
  - set (s' := resetCursor (appended frame s)).
    assert (HP : appliedProtocol s' = appliedProtocol s) by reflexivity.
    assert (Hsend : sendMessage this s payload = sendMessage this s' payload)
      by reflexivity.
    rewrite Hsend, collect_sendMessage; rewrite ?HP; auto.
    subst s'. cbn [resetCursor temporaryBuffer].
    rewrite appended_length. lia.
Qed.

(** A malformed frame as long as the buffer and one byte more: the cut
    removes the dangling escape byte, and the rest is emitted. *)
Lemma oversized_malformed_frame_emitted :
  let frame := repeat x01 capacity ++ [xdb] in
  malformed defaultProtocolDefinition frame
  /\ unescape defaultProtocolDefinition frame = None
  /\ snd (collectDataAndFireMessageEvent_ firstInstance
            (frame ++ [xc0]) firstStore)
     = [repeat x01 capacity].
Proof.
  intros frame. split; [|split].
  - exists (repeat x01 capacity), []. split; [reflexivity | exact I].
  - vm_compute. reflexivity.
  - vm_compute. reflexivity.
Qed.

(** C5 (amended).  Malformed escape drop: under a protocol definition that
    is a codec and whose escape byte is no replacement, at a reachable
    store that is collecting nothing, a malformed frame of at most
    [capacity] bytes followed by the end byte emits no message and leaves
    the cursor at 0; the frame of a non-empty payload whose encoding fits
    in [capacity] bytes, delivered next, is emitted as that payload. *)
Theorem malformed_frame_dropped this s frame payload :
  reachable s ->
  writeCursor s = 0 ->
  codec (appliedProtocol s) ->
  ~ In (escapeByte (appliedProtocol s))
       (map replacement (escapeRules (appliedProtocol s))) ->
  endByte_ this = endByte (appliedProtocol s) ->
  malformed (appliedProtocol s) frame ->
  ~ In (endByte_ this) frame ->
  length frame <= capacity ->
  payload <> [] ->
  length (SLIPMessage (appliedProtocol s) payload) <= capacity ->
  let r := collectDataAndFireMessageEvent_ this (frame ++ [endByte_ this]) s in
  snd r = []
  /\ writeCursor (fst r) = 0
  /\ snd (collectDataAndFireMessageEvent_ this
            (sendMessage this s payload) (fst r)) = [payload].
Proof.
  intros Hr Hw Hc Hesc He Hbad.
  apply undecodable_frame_dropped; auto.
  now apply malformed_unescape.
Qed.

Lemma malformed_frame_dropped_witness :
  let r := collectDataAndFireMessageEvent_ firstInstance
             ([xdb] ++ [endByte_ firstInstance]) firstStore in
  snd r = []
  /\ writeCursor (fst r) = 0
  /\ snd (collectDataAndFireMessageEvent_ firstInstance
            (sendMessage firstInstance firstStore [x01; xc0; x02]) (fst r))
     = [[x01; xc0; x02]].
Proof.
  apply (malformed_frame_dropped firstInstance firstStore [xdb] [x01; xc0; x02]).
  - exact firstStore_reachable.
  - reflexivity.
  - exact codec_default.
  - simpl. intuition discriminate.
  - reflexivity.
  - exists [], []. split; [reflexivity | exact I].
  - simpl. intuition discriminate.
  - by_computation.
  - discriminate.
  - by_computation.
Defined.

(** * Chunks without end byte *)

(** A chunk of [capacity + 1] bytes without end byte, delivered to the
    empty buffer: the cursor stops at [capacity]. *)
Lemma oversized_chunk_cut :
  let data := repeat x01 (capacity + 1) in
  let s' := fst (collectDataAndFireMessageEvent_ firstInstance data firstStore) in
  indexOf data (endByte_ firstInstance) = None
  /\ writeCursor s' = capacity
  /\ writeCursor s' <> writeCursor firstStore + length data.
Proof.
  intros data s'. assert (Hc : writeCursor s' = capacity).
  { vm_compute. reflexivity. }
  split; [vm_compute; reflexivity | split; [exact Hc|]].
  rewrite Hc. subst data. rewrite repeat_length.
  change (writeCursor firstStore) with 0. lia.
Qed.

(** C6 (amended).  Partial frame: for every chunk without end byte that
    fits in the room left behind the write cursor, the call writes the
    whole chunk into the buffer at the cursor, advances the cursor by the
    length of the chunk and emits no message. *)
Theorem chunk_without_end_appended this data s :
  indexOf data (endByte_ this) = None ->
  writeCursor s + length data <= length (temporaryBuffer s) ->
  collectDataAndFireMessageEvent_ this data s
  = ({| appliedProtocol := appliedProtocol s;
        temporaryBuffer :=
          firstn (writeCursor s) (temporaryBuffer s)
            ++ data
            ++ skipn (writeCursor s + length data) (temporaryBuffer s);
        writeCursor := writeCursor s + length data |},
     []).
Proof.
  intros Hno Hfit. rewrite (collect_no_end this data s Hno).
  unfold appended, room.
  rewrite Nat.min_l by lia.
  now rewrite (@firstn_all2 _ (length (temporaryBuffer s) - writeCursor s) data)
    by lia.
Qed.

Lemma chunk_without_end_appended_witness :
  collectDataAndFireMessageEvent_ firstInstance [x01; xdb]
    (loaded [x0a; x0b; x0c])
  = ({| appliedProtocol := defaultProtocolDefinition;
        temporaryBuffer :=
          [x01; xdb] ++ skipn 2 (temporaryBuffer (loaded [x0a; x0b; x0c]));
        writeCursor := 2 |},
     []).
Proof.
  apply (chunk_without_end_appended firstInstance [x01; xdb]
           (loaded [x0a; x0b; x0c])).
  - reflexivity.
  - by_computation.
Defined.

(** * One pending frame, one message per terminated frame *)

(** C7.  At a store whose cursor lies in the buffer, whatever the chunks
    delivered to an instance: the messages emitted are, in order, those
    delivered by the frames of the stream that an end byte has terminated
    (each cut to the size of the buffer), at most one per end byte
    received; and what the store then holds is one pending frame, the
    unterminated rest of the stream, for which nothing was emitted. *)
Theorem messages_follow_terminated_frames this chunks s :
  inBounds s ->
  let size := length (temporaryBuffer s) in
  let frames := framesOf (endByte_ this) (pending s) (concat chunks) in
  let r := receive this chunks s in
  snd r = flat_map (fun f => delivered (appliedProtocol s) (firstn size f))
                   (fst frames)
  /\ pending (fst r) = firstn size (snd frames)
  /\ length (snd r)
     <= count_occ Byte.byte_eq_dec (concat chunks) (endByte_ this)
  /\ (count_occ Byte.byte_eq_dec (concat chunks) (endByte_ this) = 0 ->
      snd r = []).
Proof.
  intros Hb size frames r. subst r. rewrite receive_steps.
  destruct (steps_frames this (concat chunks) s (pending s) Hb) as [Hm Hp].
  { symmetry. apply firstn_all2. rewrite pending_length by exact Hb. exact Hb. }
  fold size frames in Hm, Hp.
  assert (Hle : length (snd (steps this (concat chunks) s))
                <= count_occ Byte.byte_eq_dec (concat chunks) (endByte_ this)).
  { rewrite Hm, <- (framesOf_count (endByte_ this) (pending s)).
    apply flat_map_at_most_one. intros f. apply delivered_at_most_one. }
  repeat split; auto.
  intros H0. rewrite H0 in Hle.
  destruct (snd (steps this (concat chunks) s)); [reflexivity | simpl in Hle; lia].
Qed.

Lemma messages_follow_terminated_frames_witness :
  let chunks := [[x01; xdb]; [xdc; x02; xc0; x05]; [xc0; xc0; x07]] in
  let r := receive firstInstance chunks firstStore in
  snd r = [[x01; xc0; x02]; [x05]] /\ pending (fst r) = [x07].
Proof.
  intros chunks r. subst r.
  destruct (messages_follow_terminated_frames firstInstance chunks firstStore)
    as (Hm & Hp & _).
  - by_computation.
  - split.
    + rewrite Hm. vm_compute. reflexivity.
    + rewrite Hp. vm_compute. reflexivity.
Defined.

(** * The buffer is shared *)

(** C8.  Two instances are constructed; the first receives the chunk 01,
    the second then receives 02 C0.  The second emits 01 02: its frame
    starts with the byte that arrived at the first.  Had the first
    received nothing, the second would emit 02.  And the pending byte of
    the first is gone. *)
Theorem instances_share_buffer :
  let '(a, s1) := new_SLIP None (loaded []) in
  let '(b, s2) := new_SLIP None s1 in
  let s3 := fst (collectDataAndFireMessageEvent_ a [x01] s2) in
  let r := collectDataAndFireMessageEvent_ b [x02; xc0] s3 in
  pending s3 = [x01]
  /\ snd r = [[x01; x02]]
  /\ snd (collectDataAndFireMessageEvent_ b [x02; xc0] s2) = [[x02]]
  /\ pending (fst r) = [].
Proof. vm_compute. repeat split. Qed.

(** * The cursor stays in the buffer *)

(** C10.  At every reachable store the buffer has [capacity] = 1024 * 10
    bytes and the write cursor is at most [capacity].  A chunk without
    end byte is written as far as room is left: the cursor advances by
    the number of bytes copied, the pending frame grows by exactly those
    bytes and the buffer keeps its size, so the excess is discarded.  The
    same cut applies to the bytes in front of an end byte: the frame
    delivered is the pending frame and as many of them as fit. *)
Theorem cursor_within_capacity s :
  reachable s ->
  length (temporaryBuffer s) = capacity
  /\ writeCursor s <= capacity
  /\ (forall this data,
        indexOf data (endByte_ this) = None ->
        let r := collectDataAndFireMessageEvent_ this data s in
        writeCursor (fst r)
        = writeCursor s + Nat.min (length data) (capacity - writeCursor s)
        /\ pending (fst r)
           = pending s ++ firstn (capacity - writeCursor s) data
        /\ length (temporaryBuffer (fst r)) = capacity
        /\ snd r = [])
  /\ (forall this data,
        indexOf data (endByte_ this) = None ->
        let r := collectDataAndFireMessageEvent_ this
                   (data ++ [endByte_ this]) s in
        snd r = delivered (appliedProtocol s)
                  (pending s ++ firstn (capacity - writeCursor s) data)
        /\ writeCursor (fst r) = 0
        /\ length (temporaryBuffer (fst r)) = capacity).
Proof.
  intros Hr. destruct (reachable_sized s Hr) as [Hlen Hb].
  split; [exact Hlen|]. split; [unfold inBounds in Hb; lia|]. split.
  - intros this data Hno r. subst r.
    rewrite (collect_no_end this data s Hno). cbn [fst snd].
    rewrite appended_cursor, appended_pending, appended_length by exact Hb.
    unfold room. rewrite Hlen. auto.
  - intros this data Hno r. subst r.
    rewrite collect_frame by (auto; now apply indexOf_None).
    cbn [fst snd resetCursor writeCursor temporaryBuffer].
    rewrite appended_length. unfold room. rewrite Hlen. auto.
Qed.

Lemma cursor_within_capacity_witness :
  length (temporaryBuffer firstStore) = capacity
  /\ writeCursor firstStore <= capacity.
Proof.
  destruct (cursor_within_capacity firstStore firstStore_reachable)
    as (Hl & Hw & _).
  split; [exact Hl | exact Hw].
Defined.

(** * Further properties of the loop *)

(** ** Any cutting of a stream into chunks *)

(** X1.  Only the stream counts: two sequences of chunks with the same
    concatenation, delivered to the same instance at the same store, leave
    the same store and emit the same messages in the same order.  Empty
    chunks, in particular, change nothing. *)
Theorem receive_rechunked this chunks1 chunks2 s :
  concat chunks1 = concat chunks2 ->
  receive this chunks1 s = receive this chunks2 s.
Proof. intros H. now rewrite !receive_steps, H. Qed.

Lemma receive_rechunked_witness :
  receive firstInstance [[x01]; [xdb; xdc]; [xc0]] firstStore
  = receive firstInstance [[x01; xdb]; []; [xdc; xc0]] firstStore.
Proof.
  apply (receive_rechunked firstInstance
           [[x01]; [xdb; xdc]; [xc0]] [[x01; xdb]; []; [xdc; xc0]] firstStore).
  reflexivity.
Defined.

(** ** What lies behind the cursor is never read *)

Lemma firstn_pending_self s :
  inBounds s -> pending s = firstn (length (temporaryBuffer s)) (pending s).
Proof.
  intros Hb. symmetry. apply firstn_all2.
  rewrite pending_length by exact Hb. exact Hb.
Qed.

Lemma steps_observe_pending this data s t :
  inBounds s -> inBounds t ->
  appliedProtocol s = appliedProtocol t ->
  length (temporaryBuffer s) = length (temporaryBuffer t) ->
  pending s = pending t ->
  snd (steps this data s) = snd (steps this data t)
  /\ pending (fst (steps this data s)) = pending (fst (steps this data t)).
Proof.
  intros Hs Ht HP HL Hp.
  destruct (steps_frames this data s (pending s) Hs (firstn_pending_self s Hs))
    as [Hms Hps].
  destruct (steps_frames this data t (pending t) Ht (firstn_pending_self t Ht))
    as [Hmt Hpt].
  rewrite Hms, Hmt, Hps, Hpt, HP, HL, Hp. auto.
Qed.

Lemma receive_observe_pending this chunks s t :
  inBounds s -> inBounds t ->
  appliedProtocol s = appliedProtocol t ->
  length (temporaryBuffer s) = length (temporaryBuffer t) ->
  pending s = pending t ->
  snd (receive this chunks s) = snd (receive this chunks t)
  /\ pending (fst (receive this chunks s))
     = pending (fst (receive this chunks t)).
Proof. intros. rewrite !receive_steps. now apply steps_observe_pending. Qed.

(** X2.  The messages an instance emits, and the frame left pending,
    depend on the store only through the applied protocol, the size of
    the buffer and the pending bytes: whatever the buffer holds at and
    behind the write cursor (uninitialised memory, remains of earlier
    frames) never reaches a message. *)
Theorem bytes_behind_cursor_unobserved this chunks s t :
  inBounds s -> inBounds t ->
  appliedProtocol s = appliedProtocol t ->
  length (temporaryBuffer s) = length (temporaryBuffer t) ->
  pending s = pending t ->
  snd (receive this chunks s) = snd (receive this chunks t)
  /\ pending (fst (receive this chunks s))
     = pending (fst (receive this chunks t)).
Proof. apply receive_observe_pending. Qed.

Lemma bytes_behind_cursor_unobserved_witness :
  snd (receive firstInstance [[x01; xdb]; [xdc; xc0; x07]]
         (snd (new_SLIP None (loaded [xaa; xbb; xcc; xdd]))))
  = snd (receive firstInstance [[x01; xdb]; [xdc; xc0; x07]] firstStore).
Proof.
  apply (bytes_behind_cursor_unobserved firstInstance
           [[x01; xdb]; [xdc; xc0; x07]]
           (snd (new_SLIP None (loaded [xaa; xbb; xcc; xdd]))) firstStore).
  - by_computation.
  - by_computation.
  - reflexivity.
  - vm_compute. reflexivity.
  - reflexivity.
Defined.

(** X3.  [messageBuffer] is overwritten in full: whatever the freshly
    allocated buffer of [writeCursor] bytes holds, after
    [temporaryBuffer.copy(messageBuffer, 0, 0, writeCursor)] it is the
    pending frame, provided the cursor lies in the buffer. *)
Theorem messageBuffer_overwritten s (messageBuffer : Buffer) :
  inBounds s ->
  length messageBuffer = writeCursor s ->
  copy (temporaryBuffer s) messageBuffer 0 0 (writeCursor s)
  = (pending s, writeCursor s).
Proof.
  unfold inBounds, pending, copy. intros Hb Hlen.
  destruct (writeCursor s) as [|w] eqn:Hw.
  - destruct messageBuffer; [reflexivity | discriminate].
  - rewrite Hlen. change (S w <=? 0) with false. cbn [orb].
    rewrite !Nat.sub_0_r, Nat.min_id, Nat.min_l by lia.
    rewrite Nat.add_0_l.
    rewrite (@skipn_all2 _ (S w) messageBuffer) by lia.
    cbn [firstn skipn app]. now rewrite app_nil_r.
Qed.

Lemma messageBuffer_overwritten_witness :
  let s := fst (collectDataAndFireMessageEvent_ firstInstance [x01; x02]
                  firstStore) in
  copy (temporaryBuffer s) [xee; xff] 0 0 (writeCursor s) = ([x01; x02], 2).
Proof.
  intros s.
  apply (messageBuffer_overwritten s [xee; xff]).
  - by_computation.
  - reflexivity.
Defined.

(** ** A lone end byte resynchronises *)

Lemma collect_endByte this s :
  collectDataAndFireMessageEvent_ this [endByte_ this] s
  = (resetCursor s, fire s).
Proof. rewrite collect_steps. apply steps_end. Qed.

(** X4.  After the bytes of [sendFlush] have arrived, what was received
    before no longer matters: from two reachable stores with the same
    applied protocol, the same chunks delivered after the flush emit the
    same messages. *)
Theorem sendFlush_resynchronises this chunks s t :
  reachable s -> reachable t ->
  appliedProtocol s = appliedProtocol t ->
  snd (receive this chunks
         (fst (collectDataAndFireMessageEvent_ this (sendFlush this) s)))
  = snd (receive this chunks
           (fst (collectDataAndFireMessageEvent_ this (sendFlush this) t))).
Proof.
  intros Hs Ht HP. unfold sendFlush. rewrite !collect_endByte. cbn [fst].
  destruct (reachable_sized s Hs) as [Hls _].
  destruct (reachable_sized t Ht) as [Hlt _].
  apply receive_observe_pending; auto with store.
  cbn [resetCursor temporaryBuffer]. congruence.
Qed.

Lemma sendFlush_resynchronises_witness :
  snd (receive firstInstance [[x05; xc0]]
         (fst (collectDataAndFireMessageEvent_ firstInstance
                 (sendFlush firstInstance)
                 (fst (collectDataAndFireMessageEvent_ firstInstance
                         [x01; xdb] firstStore)))))
  = snd (receive firstInstance [[x05; xc0]]
           (fst (collectDataAndFireMessageEvent_ firstInstance
                   (sendFlush firstInstance) firstStore))).
Proof.
  apply (sendFlush_resynchronises firstInstance [[x05; xc0]]
           (fst (collectDataAndFireMessageEvent_ firstInstance
                   [x01; xdb] firstStore))
           firstStore).
  - apply reach_data. exact firstStore_reachable.
  - exact firstStore_reachable.
  - reflexivity.
Defined.

(** ** Instances with the same end byte are one reassembler *)

Lemma steps_same_endByte a b data s :
  endByte_ a = endByte_ b -> steps a data s = steps b data s.
Proof.
  intros He. revert s; induction data as [|x rest IH]; intros s; simpl.
  - reflexivity.
  - unfold step. rewrite He.
    destruct (Byte.eqb x (endByte_ b)); cbn [fst snd]; now rewrite IH.
Qed.

(** X5.  The loop looks at the instance only for its end byte, and the
    buffer belongs to no instance: a chunk delivered to [a] followed by a
    chunk delivered to [b], two instances with the same end byte, is
    reassembled as the one chunk made of both would be at [a].  The store
    is the same and so are the messages, whichever instance each is
    emitted on. *)
Theorem instances_reassemble_one_stream a b c1 c2 s :
  endByte_ a = endByte_ b ->
  let r1 := collectDataAndFireMessageEvent_ a c1 s in
  let r2 := collectDataAndFireMessageEvent_ b c2 (fst r1) in
  (fst r2, snd r1 ++ snd r2) = collectDataAndFireMessageEvent_ a (c1 ++ c2) s.
Proof.
  intros He r1 r2. subst r1 r2.
  rewrite !collect_steps, steps_app, (steps_same_endByte a b c2 _ He).
  reflexivity.
Qed.

Lemma instances_reassemble_one_stream_witness :
  let a := fst (new_SLIP None (loaded [])) in
  let s1 := snd (new_SLIP None (loaded [])) in
  let b := fst (new_SLIP None s1) in
  let s2 := snd (new_SLIP None s1) in
  let r1 := collectDataAndFireMessageEvent_ a [x01; xdb] s2 in
  let r2 := collectDataAndFireMessageEvent_ b [xdc; xc0] (fst r1) in
  (fst r2, snd r1 ++ snd r2)
  = collectDataAndFireMessageEvent_ a ([x01; xdb] ++ [xdc; xc0]) s2.
Proof.
  intros a s1 b s2.
  apply (instances_reassemble_one_stream a b [x01; xdb] [xdc; xc0] s2).
  reflexivity.
Defined.

(** ** The pending frame *)

Lemma In_firstn {A : Type} (x : A) n l : In x (firstn n l) -> In x l.
Proof.
  intros H. rewrite <- (firstn_skipn n l). apply in_or_app. now left.
Qed.

(** X7.  The pending bytes never hold the end byte of the instance that
    receives: if they hold none before, they hold none after any chunks. *)
Theorem pending_without_endByte this chunks s :
  inBounds s ->
  ~ In (endByte_ this) (pending s) ->
  ~ In (endByte_ this) (pending (fst (receive this chunks s))).
Proof.
  intros Hb Hopen Hin. rewrite receive_steps in Hin.
  destruct (steps_frames this (concat chunks) s (pending s) Hb
              (firstn_pending_self s Hb)) as [_ Hp].
  rewrite Hp in Hin. apply In_firstn in Hin.
  exact (framesOf_rest_open _ _ _ Hopen Hin).
Qed.

Lemma pending_without_endByte_witness :
  ~ In (endByte_ firstInstance)
       (pending (fst (receive firstInstance [[x01; xc0; x02]; [x03]]
                        firstStore))).
Proof.
  apply (pending_without_endByte firstInstance [[x01; xc0; x02]; [x03]]
           firstStore).
  - by_computation.
  - intros [].
Defined.

(** ** A full buffer *)

(** X8.  Once the cursor has reached the end of the buffer, a chunk
    without end byte changes nothing: the store is left as it was and no
    message is emitted.  Bytes beyond the capacity are lost until the next
    end byte. *)
Theorem full_buffer_absorbs this data s :
  length (temporaryBuffer s) <= writeCursor s ->
  indexOf data (endByte_ this) = None ->
  collectDataAndFireMessageEvent_ this data s = (s, []).
Proof.
  intros Hfull Hno. rewrite (collect_no_end this data s Hno). f_equal.
  unfold appended, room.
  replace (length (temporaryBuffer s) - writeCursor s) with 0 by lia.
  rewrite Nat.min_0_r, Nat.add_0_r, firstn_O. cbn [app].
  rewrite firstn_skipn. now destruct s.
Qed.

Lemma full_buffer_absorbs_witness :
  let s := fst (collectDataAndFireMessageEvent_ firstInstance
                  (repeat x01 capacity) firstStore) in
  collectDataAndFireMessageEvent_ firstInstance [x02; x03] s = (s, []).
Proof.
  intros s. apply (full_buffer_absorbs firstInstance [x02; x03] s).
  - by_computation.
  - reflexivity.
Defined.
